(** * p2pchat: the command surface of the presentation layer

    A shallow embedding of [src/utils/backend.ts], the module through which
    the user interface reaches the peer-to-peer engine.  Every exported
    function of that module is an [async] wrapper around one call of Tauri's
    [invoke]; the embedding keeps the wrappers as they are written and makes
    the three effects they have explicit: the backend invocation, the line
    printed by [console.error], and the settlement (fulfilled or rejected) of
    the promise the wrapper returns. *)

From stdpp Require Import gmap strings list fin_maps.

Open Scope string_scope.
Open Scope list_scope.
Set Warnings "-register-all".

(** ** JavaScript values

    TypeScript's types are erased at run time, so what crosses the boundary
    to the backend is a plain JavaScript value. *)

Inductive JsValue : Type :=
| JUndefined
| JNull
| JBool (b : bool)
| JNum (n : Z)
| JStr (s : string)
| JArr (items : list JsValue)
| JObj (fields : list (string * JsValue)).

(** The types imported from [./types].  That module holds declarations only
    and is not needed to run the wrappers: values of these types are passed
    to or received from [invoke] untouched. *)
Definition PeerId := JsValue.
Definition GroupId := JsValue.
Definition FileInfo := JsValue.
Definition GroupInfo := JsValue.
Definition Message := JsValue.
Definition Setting := JsValue.

(** An optional parameter [x?: string] that the caller left out is
    [undefined]. *)
Definition optional (x : option string) : JsValue :=
  match x with
  | Some s => JStr s
  | None => JUndefined
  end.

(** An optional parameter of an object type. *)
Definition optional_value (x : option JsValue) : JsValue :=
  match x with
  | Some v => v
  | None => JUndefined
  end.

(** ** Promises and the backend *)

(** How a promise settles. *)
Inductive Settled (A : Type) : Type :=
| Fulfilled (value : A)
| Rejected (err : JsValue).
Arguments Fulfilled {A} value.
Arguments Rejected {A} err.

(** The second argument of [invoke] is an object literal, or absent. *)
Definition InvokeArgs := list (string * JsValue).

(** One call [invoke(cmd, args)]. *)
Record Invocation : Type := mkInvocation {
  cmd : string;
  args : option InvokeArgs
}.

(** What a wrapper can observe and change: the state of the backend behind
    [invoke], the invocations issued so far (oldest first) and the values
    printed with [console.error] (oldest first). *)
Record World (St : Type) : Type := mkWorld {
  core : St;
  issued : list Invocation;
  console : list JsValue
}.
Arguments mkWorld {St} core issued console.
Arguments core {St} w.
Arguments issued {St} w.
Arguments console {St} w.

(** The backend answers an invocation from its state and moves to a new
    state. *)
Definition Backend (St : Type) : Type := Invocation -> St -> Settled JsValue * St.

(** An [async] computation: run in a world, it settles and leaves a world. *)
Definition Async (St A : Type) : Type := World St -> Settled A * World St.

Section AsyncMonad.
Context {St : Type}.

(** [return a] *)
Definition ret {A} (a : A) : Async St A := fun w => (Fulfilled a, w).

(** [throw e] *)
Definition throw {A} (e : JsValue) : Async St A := fun w => (Rejected e, w).

(** Sequencing; [await] of a rejected promise throws, which skips the rest
    of the block. *)
Definition bind {A B} (m : Async St A) (k : A -> Async St B) : Async St B :=
  fun w =>
    match m w with
    | (Fulfilled a, w') => k a w'
    | (Rejected e, w') => (Rejected e, w')
    end.

(** [try { body } catch (err) { handler }] *)
Definition try_catch {A} (body : Async St A) (handler : JsValue -> Async St A)
  : Async St A :=
  fun w =>
    match body w with
    | (Fulfilled a, w') => (Fulfilled a, w')
    | (Rejected e, w') => handler e w'
    end.

(** [promise.catch(handler)]: the promise that settles as [promise] does
    when it is fulfilled and as the handler's result otherwise. *)
Definition promise_catch {A} (promise : Async St A)
    (handler : JsValue -> Async St A) : Async St A :=
  fun w =>
    match promise w with
    | (Fulfilled a, w') => (Fulfilled a, w')
    | (Rejected e, w') => handler e w'
    end.

(** [console.error(v)] *)
Definition console_error (v : JsValue) : Async St unit :=
  fun w =>
    (Fulfilled tt,
     {| core := core w; issued := issued w; console := console w ++ [v] |}).

(** [invoke(cmd, args)] *)
Definition invoke (backend : Backend St) (c : string) (a : option InvokeArgs)
  : Async St JsValue :=
  fun w =>
    let call := {| cmd := c; args := a |} in
    let '(answer, s') := backend call (core w) in
    (answer,
     {| core := s'; issued := issued w ++ [call]; console := console w |}).
End AsyncMonad.

Notation "'let*' x ':=' m 'in' k" := (bind m (fun x => k))
  (at level 10, x name, m at level 100, k at level 200).
Notation "m ';;' k" := (bind m (fun _ => k))
  (at level 100, k at level 200, right associativity).

(** ** The wrappers of [backend.ts] *)

Section Wrappers.
Context {St : Type}.
Variable backend : Backend St.

Definition startListen (listenAddr : option string) : Async St JsValue :=
  try_catch
    (let* _ := invoke backend "start_listen"
                 (Some [("listenAddr", optional listenAddr)]) in
     ret JUndefined)
    (fun err => console_error err ;; throw err).

Definition getLocalPeerId : Async St JsValue :=
  let* id := invoke backend "get_local_peer_id" None in
  ret id.

Definition stopListen : Async St JsValue :=
  try_catch
    (let* _ := invoke backend "stop_listen" None in
     ret JUndefined)
    (fun err => console_error err ;; ret JUndefined).

Definition getListeners : Async St JsValue :=
  try_catch
    (let* listeners := invoke backend "get_listeners" None in
     ret listeners)
    (fun err => console_error err ;; throw err).

Definition getFile (file : FileInfo) : Async St JsValue :=
  let* _ := promise_catch
              (invoke backend "get_file" (Some [("file", file)]))
              (fun err => console_error err ;; ret JUndefined) in
  ret JUndefined.

Definition startProvide (path : string) (file : option FileInfo)
  : Async St JsValue :=
  try_catch
    (let* resfile := invoke backend "start_provide"
                       (Some [("path", JStr path);
                              ("file", optional_value file)]) in
     ret resfile)
    (fun err => console_error err ;; throw err).

Definition stopProvide (file : FileInfo) : Async St JsValue :=
  try_catch
    (let* _ := invoke backend "stop_provide" (Some [("file", file)]) in
     ret JUndefined)
    (fun err => console_error err ;; throw err).

Definition loadSetting (loadPath : option string) : Async St JsValue :=
  try_catch
    (let* setting := invoke backend "load_setting"
                       (Some [("loadPath", optional loadPath)]) in
     ret setting)
    (fun err => console_error err ;; throw err).

Definition saveSetting (setting : Setting) (savePath : option string)
  : Async St JsValue :=
  try_catch
    (let* _ := invoke backend "save_setting"
                 (Some [("setting", setting);
                        ("savePath", optional savePath)]) in
     ret JUndefined)
    (fun err => console_error err ;; throw err).

Definition listProvide : Async St JsValue :=
  try_catch
    (let* providers := invoke backend "list_provide" None in
     ret providers)
    (fun err => console_error err ;; throw err).

Definition connectedPeers : Async St JsValue :=
  try_catch
    (let* peers := invoke backend "connected_peers" None in
     ret peers)
    (fun err => console_error err ;; throw err).

Definition dial (addr : string) : Async St JsValue :=
  try_catch
    (let* _ := invoke backend "dial" (Some [("addr", JStr addr)]) in
     ret JUndefined)
    (fun err => console_error err ;; throw err).

Definition publishMessage (groupId : GroupId) (message : Message)
  : Async St JsValue :=
  try_catch
    (let* _ := invoke backend "publish_message"
                 (Some [("groupId", groupId); ("message", message)]) in
     ret JUndefined)
    (fun err => console_error err ;; throw err).

Definition subscribe (groupId : GroupId) : Async St JsValue :=
  try_catch
    (let* _ := invoke backend "subscribe" (Some [("groupId", groupId)]) in
     ret JUndefined)
    (fun err => console_error err ;; throw err).

Definition getGroups : Async St JsValue :=
  let* groups := invoke backend "invoke_manager"
                   (Some [("name", JStr "group");
                          ("action", JStr "get_groups")]) in
  ret groups.

Definition newGroup (groupInfo : GroupInfo) : Async St JsValue :=
  let* id := invoke backend "new_group" (Some [("groupInfo", groupInfo)]) in
  ret id.

Definition getGroupState (groupId : GroupId) : Async St JsValue :=
  let* state := invoke backend "invoke_manager"
                  (Some [("name", JStr "group");
                         ("action", JStr "get_group_state");
                         ("params", groupId)]) in
  ret state.

Definition getUsers : Async St JsValue :=
  let* users := invoke backend "invoke_manager"
                  (Some [("name", JStr "user");
                         ("action", JStr "get_users")]) in
  ret users.
End Wrappers.

(** ** The command surface as a whole *)

(** One constructor per exported function, with the arguments of a call. *)
Inductive Operation : Type :=
| StartListen (listenAddr : option string)
| GetLocalPeerId
| StopListen
| GetListeners
| GetFile (file : FileInfo)
| StartProvide (path : string) (file : option FileInfo)
| StopProvide (file : FileInfo)
| LoadSetting (loadPath : option string)
| SaveSetting (setting : Setting) (savePath : option string)
| ListProvide
| ConnectedPeers
| Dial (addr : string)
| PublishMessage (groupId : GroupId) (message : Message)
| Subscribe (groupId : GroupId)
| GetGroups
| NewGroup (groupInfo : GroupInfo)
| GetGroupState (groupId : GroupId)
| GetUsers.

(** Calling an operation is calling its wrapper. *)
Definition call {St} (backend : Backend St) (op : Operation) : Async St JsValue :=
  match op with
  | StartListen listenAddr => startListen backend listenAddr
  | GetLocalPeerId => getLocalPeerId backend
  | StopListen => stopListen backend
  | GetListeners => getListeners backend
  | GetFile file => getFile backend file
  | StartProvide path file => startProvide backend path file
  | StopProvide file => stopProvide backend file
  | LoadSetting loadPath => loadSetting backend loadPath
  | SaveSetting setting savePath => saveSetting backend setting savePath
  | ListProvide => listProvide backend
  | ConnectedPeers => connectedPeers backend
  | Dial addr => dial backend addr
  | PublishMessage groupId message => publishMessage backend groupId message
  | Subscribe groupId => subscribe backend groupId
  | GetGroups => getGroups backend
  | NewGroup groupInfo => newGroup backend groupInfo
  | GetGroupState groupId => getGroupState backend groupId
  | GetUsers => getUsers backend
  end.

(** The names of the exported functions. *)
Inductive Wrapper : Type :=
| W_startListen | W_getLocalPeerId | W_stopListen | W_getListeners
| W_getFile | W_startProvide | W_stopProvide | W_loadSetting | W_saveSetting
| W_listProvide | W_connectedPeers | W_dial | W_publishMessage | W_subscribe
| W_getGroups | W_newGroup | W_getGroupState | W_getUsers.

Definition wrapper_of (op : Operation) : Wrapper :=
  match op with
  | StartListen _ => W_startListen
  | GetLocalPeerId => W_getLocalPeerId
  | StopListen => W_stopListen
  | GetListeners => W_getListeners
  | GetFile _ => W_getFile
  | StartProvide _ _ => W_startProvide
  | StopProvide _ => W_stopProvide
  | LoadSetting _ => W_loadSetting
  | SaveSetting _ _ => W_saveSetting
  | ListProvide => W_listProvide
  | ConnectedPeers => W_connectedPeers
  | Dial _ => W_dial
  | PublishMessage _ _ => W_publishMessage
  | Subscribe _ => W_subscribe
  | GetGroups => W_getGroups
  | NewGroup _ => W_newGroup
  | GetGroupState _ => W_getGroupState
  | GetUsers => W_getUsers
  end.

(** The registry reads. *)
Definition registry_read (op : Operation) : bool :=
  match op with
  | GetGroups | GetGroupState _ | GetUsers => true
  | _ => false
  end.

(** The wrappers whose [catch] block ends in [throw err]. *)
Definition logs_and_rethrows (op : Operation) : bool :=
  match op with
  | StartListen _ | GetListeners | StartProvide _ _ | StopProvide _
  | LoadSetting _ | SaveSetting _ _ | ListProvide | ConnectedPeers
  | Dial _ | PublishMessage _ _ | Subscribe _ => true
  | _ => false
  end.

(** The wrappers whose error handler prints the error and stops there. *)
Definition logs_and_swallows (op : Operation) : bool :=
  match op with
  | StopListen | GetFile _ => true
  | _ => false
  end.

(** The wrappers with no error handling of their own. *)
Definition passes_through (op : Operation) : bool :=
  match op with
  | GetLocalPeerId | NewGroup _ | GetGroups | GetGroupState _ | GetUsers => true
  | _ => false
  end.

(** The wrappers that hand the backend's answer to their caller. *)
Definition returns_answer (op : Operation) : bool :=
  match op with
  | GetLocalPeerId | GetListeners | StartProvide _ _ | LoadSetting _
  | ListProvide | ConnectedPeers | GetGroups | NewGroup _
  | GetGroupState _ | GetUsers => true
  | _ => false
  end.

(** The command and the argument object an operation sends. *)
Definition request_of (op : Operation) : Invocation :=
  match op with
  | StartListen listenAddr =>
      mkInvocation "start_listen" (Some [("listenAddr", optional listenAddr)])
  | GetLocalPeerId => mkInvocation "get_local_peer_id" None
  | StopListen => mkInvocation "stop_listen" None
  | GetListeners => mkInvocation "get_listeners" None
  | GetFile file => mkInvocation "get_file" (Some [("file", file)])
  | StartProvide path file =>
      mkInvocation "start_provide"
        (Some [("path", JStr path); ("file", optional_value file)])
  | StopProvide file => mkInvocation "stop_provide" (Some [("file", file)])
  | LoadSetting loadPath =>
      mkInvocation "load_setting" (Some [("loadPath", optional loadPath)])
  | SaveSetting setting savePath =>
      mkInvocation "save_setting"
        (Some [("setting", setting); ("savePath", optional savePath)])
  | ListProvide => mkInvocation "list_provide" None
  | ConnectedPeers => mkInvocation "connected_peers" None
  | Dial addr => mkInvocation "dial" (Some [("addr", JStr addr)])
  | PublishMessage groupId message =>
      mkInvocation "publish_message"
        (Some [("groupId", groupId); ("message", message)])
  | Subscribe groupId => mkInvocation "subscribe" (Some [("groupId", groupId)])
  | GetGroups =>
      mkInvocation "invoke_manager"
        (Some [("name", JStr "group"); ("action", JStr "get_groups")])
  | NewGroup groupInfo =>
      mkInvocation "new_group" (Some [("groupInfo", groupInfo)])
  | GetGroupState groupId =>
      mkInvocation "invoke_manager"
        (Some [("name", JStr "group"); ("action", JStr "get_group_state");
               ("params", groupId)])
  | GetUsers =>
      mkInvocation "invoke_manager"
        (Some [("name", JStr "user"); ("action", JStr "get_users")])
  end.

(** Two backends used to run the wrappers on concrete inputs: one that
    fulfils every invocation with the same value and one that rejects every
    invocation with the same error. *)
Definition answering (v : JsValue) : Backend unit :=
  fun _ s => (Fulfilled v, s).

Definition failing (e : JsValue) : Backend unit :=
  fun _ s => (Rejected e, s).

Definition fresh : World unit := mkWorld tt [] [].

(** A single direct invocation, as the claim words it: the backend is asked
    once, its answer is the result, and nothing is printed. *)
Definition direct_invocation {St} (backend : Backend St) (c : string)
    (a : option InvokeArgs) : Async St JsValue :=
  fun w =>
    (fst (backend (mkInvocation c a) (core w)),
     mkWorld (snd (backend (mkInvocation c a) (core w)))
       (issued w ++ [mkInvocation c a]) (console w)).

(** ** Calls in a row

    A caller that makes one call after the other, waiting for each to settle
    and going on whatever the outcome: the settlements in call order, and the
    world left behind. *)
Fixpoint session {St} (backend : Backend St) (ops : list Operation)
  : World St -> list (Settled JsValue) * World St :=
  fun w =>
    match ops with
    | [] => ([], w)
    | op :: rest =>
        let '(settled, w') := call backend op w in
        let '(others, w'') := session backend rest w' in
        (settled :: others, w'')
    end.

(** What a wrapper prints for an answer of the backend. *)
Definition printed (op : Operation) (answer : Settled JsValue) : list JsValue :=
  match answer with
  | Fulfilled _ => []
  | Rejected e => if passes_through op then [] else [e]
  end.

(** * The engine behind the command surface

    The commands are served by the Rust half of the application
    ([src-tauri]), which [backend.ts] only reaches through [invoke].  The
    parts of it that the properties below depend on are modelled from the
    specification, each in a module of its own. *)

(** ** SettingsStore *)

Module SettingsStore.

(** The value of a field of the argument object of an invocation. *)
Definition field (name : string) (a : option InvokeArgs) : option JsValue :=
  match a with
  | Some fields =>
      match find (fun kv => String.eqb (fst kv) name) fields with
      | Some kv => Some (snd kv)
      | None => None
      end
  | None => None
  end.

Section Store.
(** The standard location, the error for a request that does not carry
    what the command needs, and the answer to a load from a path nothing
    was saved at: the specification leaves all three open. *)
Variable standard_location : string.
Variable malformed : JsValue.
Variable nothing_saved : string -> Settled JsValue.

(** The path a command works on: the override when the caller gave one,
    the standard location otherwise. *)
Definition target (override : option JsValue) : string :=
  match override with
  | Some (JStr path) => path
  | _ => standard_location
  end.

(** Modelled from the spec: the backend commands [save_setting] and
    [load_setting], which live in the Rust half of the repository.
    Section 6 describes them as "a persistence collaborator for Setting
    (opaque load/save of a structured blob keyed by an optional path,
    defaulting to a standard location)".  The store is therefore a map
    from paths to blobs; saving writes the blob at the target path and
    loading reads the blob at the target path.  Any other command is left
    to [others], the rest of the backend, which does not touch the
    store. *)
Definition serve {R : Type} (others : Backend R)
  : Backend (gmap string Setting * R) :=
  fun request state =>
    let '(store, rest) := state in
    if String.eqb (cmd request) "save_setting" then
      match field "setting" (args request) with
      | Some setting =>
          (Fulfilled JNull,
           (<[target (field "savePath" (args request)) := setting]> store,
            rest))
      | None => (Rejected malformed, state)
      end
    else if String.eqb (cmd request) "load_setting" then
      match store !! target (field "loadPath" (args request)) with
      | Some setting => (Fulfilled setting, state)
      | None =>
          (nothing_saved (target (field "loadPath" (args request))), state)
      end
    else
      let '(answer, rest') := others request rest in
      (answer, (store, rest')).
End Store.
End SettingsStore.

(** ** ContentDirectory and FileTransferService *)

Module Directory.

Definition PeerId := string.
Definition ContentKey := string.

Record FileDescriptor : Type := mkFile {
contentKey : ContentKey;
displayName : string;
declaredSize : nat;
mediaType : string;
localPath : option string
}.

(** (contentKey, PeerId, expiry); time is counted in ticks. *)
Record ProviderRecord : Type := mkRecord {
key : ContentKey;
provider : PeerId;
expiry : nat
}.

(** The distributed index, seen as a whole, in the order of the directory's
    proximity metric. *)
Abbreviation Index := (list ProviderRecord).

Definition claims (k : ContentKey) (p : PeerId) (r : ProviderRecord) : Prop :=
key r = k /\ provider r = p.

#[global] Instance claims_dec k p r : Decision (claims k p r).
Proof. unfold claims. apply _. Defined.

Definition serves (k : ContentKey) (now : nat) (r : ProviderRecord) : Prop :=
key r = k /\ now < expiry r.

#[global] Instance serves_dec k now r : Decision (serves k now r).
Proof. unfold serves. apply _. Defined.

Definition expired (now : nat) (r : ProviderRecord) : Prop :=
expiry r <= now.

#[global] Instance expired_dec now r : Decision (expired now r).
Proof. unfold expired. apply _. Defined.

Section Index.
(** The bounded time to live of a record. *)
Variable ttl : nat.

(** Modelled from the spec: [announce] of section 4.2, part of the Rust half
    of the repository.  "Publishes this node as a provider for contentKey
    into the distributed index, with a bounded TTL"; the record of an earlier
    announcement of the same file by the same peer is replaced. *)
Definition announce (now : nat) (p : PeerId) (fd : FileDescriptor) (ix : Index)
  : Index * ProviderRecord :=
let r := mkRecord (contentKey fd) p (now + ttl) in
(filter (fun x => ~ claims (contentKey fd) p x) ix ++ [r], r).

(** Modelled from the spec: the periodic re-announcement of section 4.2,
    which refreshes the record "while the file remains registered" and does
    nothing for a file that is not. *)
Definition reannounce (now : nat) (p : PeerId) (k : ContentKey) (ix : Index)
  : Index :=
(fun r => if decide (claims k p r) then mkRecord k p (now + ttl) else r) <$> ix.

(** Modelled from the spec: [withdraw] of section 4.2, which "stops
    re-announcement and best-effort removes the record". *)
Definition withdraw (p : PeerId) (fd : FileDescriptor) (ix : Index) : Index :=
filter (fun x => ~ claims (contentKey fd) p x) ix.

(** Modelled from the spec: a garbage-collection pass over the soft state
    (section 9), which drops the records whose time to live has run out. *)
Definition collect (now : nat) (ix : Index) : Index :=
filter (fun x => ~ expired now x) ix.

(** What happens to the index. *)
Inductive Event : Type :=
| Announce (now : nat) (p : PeerId) (fd : FileDescriptor)
| Reannounce (now : nat) (p : PeerId) (k : ContentKey)
| Withdraw (p : PeerId) (fd : FileDescriptor)
| Collect (now : nat).

Definition step (ix : Index) (ev : Event) : Index :=
match ev with
| Announce now p fd => fst (announce now p fd ix)
| Reannounce now p k => reannounce now p k ix
| Withdraw p fd => withdraw p fd ix
| Collect now => collect now ix
end.

(** The index after a history of events, starting from no record at all. *)
Definition index_after (history : list Event) : Index :=
foldl step [] history.
End Index.

(** An event that announces the key [k]. *)
Definition announces (k : ContentKey) (ev : Event) : Prop :=
match ev with
| Announce _ _ fd => contentKey fd = k
| _ => False
end.

(** A key that no event of the history announces. *)
Definition never_announced (k : ContentKey) (history : list Event) : Prop :=
Forall (fun ev => ~ announces k ev) history.

(** How a lookup ends on the network: answered in full, cut short by its
    time bound after hearing of some providers, or not possible at all. *)
Inductive Lookup : Type :=
| Answered
| TimedOut (heard : nat)
| Unreachable.

Inductive DirectoryError : Type :=
| DirectoryUnreachable.

(** Modelled from the spec: the soft state of section 3 (ProviderRecord), "a
    peer announces it serves a file; expires and must be periodically
    re-announced".  The peers with a record for [k] that has not expired, in
    index order. *)
Definition live (now : nat) (k : ContentKey) (ix : Index) : list PeerId :=
provider <$> filter (serves k now) ix.

(** Modelled from the spec: [findProviders] of section 4.2, part of the Rust
    half of the repository.  "Finite but may legitimately return zero
    results"; "a lookup timing out with zero providers is not an error, it is
    an empty result"; "directory unreachable" is a "network-level failure,
    surfaced as an error". *)
Definition findProviders (ix : Index) (now : nat) (net : Lookup)
    (k : ContentKey) : DirectoryError + list PeerId :=
match net with
| Answered => inr (live now k ix)
| TimedOut heard => inr (take heard (live now k ix))
| Unreachable => inl DirectoryUnreachable
end.

(** What comes back from a provider asked for a key: nothing, because the
    peer cannot be reached; a "not found" response; or a descriptor and a
    stream of bytes. *)
Inductive Reply : Type :=
| Dead
| NotFound
| Stream (fd : FileDescriptor) (body : list Byte.byte).

(** A file as a provider keeps it, filed under its content key: the rest of
    its descriptor and the bytes that are at its local path now. *)
Record Held : Type := mkHeld {
heldName : string;
heldSize : nat;
heldType : string;
heldPath : string;
heldBytes : list Byte.byte
}.

(** The peers as they are at the time of a fetch: which of them can be
    reached, and what each has registered for serving. *)
Record Peers : Type := mkPeers {
reachable : PeerId -> bool;
shelf : PeerId -> gmap ContentKey Held
}.

(** The descriptor that goes over the wire; the local path stays on the
    serving side. *)
Definition descriptor (k : ContentKey) (h : Held) : FileDescriptor :=
mkFile k (heldName h) (heldSize h) (heldType h) None.

(** Modelled from the spec: the server role of section 4.3, part of the Rust
    half of the repository.  A provider answers a request for a content key
    it has registered "by streaming the file's bytes" and rejects "requests
    for unknown contentKeys with a not found response"; a peer that cannot be
    reached answers nothing. *)
Definition answer (net : Peers) (p : PeerId) (k : ContentKey) : Reply :=
if reachable net p then
  match shelf net p !! k with
  | Some h => Stream (descriptor k h) (heldBytes h)
  | None => NotFound
  end
else Dead.

(** Modelled from the spec: "a currently reachable provider holds valid
    content for that key" (section 8), said of the peers and not of the
    client: the peer can be reached, it has a file registered under the key,
    and the bytes it has are as many as the file's declared size, the one
    validity the specification asks for (section 9). *)
Definition holds_valid_content (net : Peers) (k : ContentKey) (p : PeerId)
  : Prop :=
reachable net p = true
/\ exists h, shelf net p !! k = Some h /\ length (heldBytes h) = heldSize h.

(** Modelled from the spec: step (3) of the client role of section 4.3.  A
    stream counts when the number of bytes received is the advertised
    size. *)
Definition received (r : Reply) : option (FileDescriptor * list Byte.byte) :=
match r with
| Stream fd body =>
    if decide (length body = declaredSize fd) then Some (fd, body) else None
| _ => None
end.

(** Modelled from the spec: steps (2) to (4) of the client role of section
    4.3.  The providers are attempted in
    directory order until one delivers; a failed attempt advances to the next
    provider; a provider budget, when the caller gave one, bounds the number
    of attempts.  Returns the providers attempted, in order, with what was
    received. *)
Fixpoint attempt (reply : PeerId -> ContentKey -> Reply) (k : ContentKey)
    (budget : option nat) (providers : list PeerId)
  : list PeerId * option (FileDescriptor * list Byte.byte) :=
match providers with
| [] => ([], None)
| p :: rest =>
    match budget with
    | Some 0 => ([], None)
    | _ =>
        match received (reply p k) with
        | Some got => ([p], Some got)
        | None =>
            let '(tried, got) := attempt reply k (Nat.pred <$> budget) rest in
            (p :: tried, got)
        end
    end
end.

Inductive FetchError : Type :=
| DirectoryFailure
| NotFoundError
| TimeoutError.

Record Fetched : Type := mkFetched {
attempted : list PeerId;
outcome : FetchError + FileDescriptor * list Byte.byte
}.

(** Modelled from the spec: [fetch] of section 4.3 (client role), part of the
    Rust half of the repository: "(1) calls ContentDirectory.findProviders,
    (2) attempts providers in directory order, dialing/connecting as needed,
    (3) on stream success, validates received byte count against the
    advertised size, else treats as a failed attempt and advances to the next
    provider, (4) fails only after all known providers have been exhausted or
    a caller-specified provider budget/timeout elapses". *)
Definition fetch_within (budget : option nat) (ix : Index) (now : nat)
    (net : Lookup) (reply : PeerId -> ContentKey -> Reply) (k : ContentKey)
  : Fetched :=
match findProviders ix now net k with
| inl _ => mkFetched [] (inl DirectoryFailure)
| inr providers =>
    match attempt reply k budget providers with
    | (tried, Some got) => mkFetched tried (inr got)
    | (tried, None) =>
        mkFetched tried
          (inl (if decide (length tried = length providers)
                then NotFoundError else TimeoutError))
    end
end.

(** [fetch(contentKey)]: no budget given. *)
Definition fetch : Index -> nat -> Lookup -> (PeerId -> ContentKey -> Reply) ->
  ContentKey -> Fetched :=
fetch_within None.

(** The client takes what the provider [p] sends for [k]: the acceptance test
    of [attempt], named for the lemmas about it. *)
Definition accepted (reply : PeerId -> ContentKey -> Reply) (k : ContentKey)
    (p : PeerId) : Prop :=
is_Some (received (reply p k)).

Definition succeeded (f : Fetched) : Prop :=
match outcome f with
| inr _ => True
| inl _ => False
end.

(** No record of the index is about the key [k]. *)
Definition no_record (k : ContentKey) (ix : Index) : Prop :=
forall r, r ∈ ix -> key r <> k.

End Directory.

(** ** GroupRegistry *)

Module Registry.

Definition PeerId := string.
Definition GroupId := string.

Record GroupInfo : Type := mkGroupInfo {
id : GroupId;
displayName : string;
createdBy : PeerId;
createdAt : nat
}.

Record GroupMessage : Type := mkGroupMessage {
sender : PeerId;
groupId : GroupId;
payload : string;
timestamp : nat;
sequence : nat
}.

Record GroupState : Type := mkGroupState {
members : gset PeerId;
messages : list GroupMessage
}.

Record UserInfo : Type := mkUserInfo {
peer : PeerId;
userName : string;
lastSeen : nat
}.

(** The local view: known groups, the state of each, known users. *)
Record Registry : Type := mkRegistry {
groups : gmap GroupId GroupInfo;
states : gmap GroupId GroupState;
users : gmap PeerId UserInfo
}.

Definition empty : Registry := mkRegistry ∅ ∅ ∅.

(** The key on which message application is idempotent. *)
Definition message_key (m : GroupMessage) : PeerId * nat :=
(sender m, sequence m).

(** Modelled from the spec: the registry side of [createGroup] (section 4.4)
    and the transition Unknown -> Created of section 4.5, part of the Rust
    half of the repository.  The group becomes known with no member and no
    message; a group that is known already is left as it is (GroupInfo is
    immutable after creation). *)
Definition createGroup (info : GroupInfo) (r : Registry) : Registry :=
match states r !! id info with
| Some _ => r
| None =>
    mkRegistry (<[id info := info]> (groups r))
      (<[id info := mkGroupState ∅ []]> (states r))
      (users r)
end.

(** Modelled from the spec: the delivery callback of the registry (sections
    4.4 and 4.5), part of the Rust half of the repository.  "A message for an
    unknown GroupId is dropped"; application is "idempotent", "keyed on
    (sender, sequence)"; messages are "append-only once delivered". *)
Definition deliver (m : GroupMessage) (r : Registry) : Registry :=
match states r !! groupId m with
| None => r
| Some st =>
    if decide (message_key m ∈ message_key <$> messages st) then r
    else
      mkRegistry (groups r)
        (<[groupId m := mkGroupState (members st) (messages st ++ [m])]>
           (states r))
        (users r)
end.

(** Modelled from the spec: membership-announcement handling (section 4.5);
    membership only grows (section 9). *)
Definition join (g : GroupId) (p : PeerId) (r : Registry) : Registry :=
match states r !! g with
| None => r
| Some st =>
    mkRegistry (groups r)
      (<[g := mkGroupState ({[p]} ∪ members st) (messages st)]> (states r))
      (users r)
end.

(** Modelled from the spec: the cache of identity metadata observed from
    peer interactions (section 3, UserInfo). *)
Definition observe (u : UserInfo) (r : Registry) : Registry :=
mkRegistry (groups r) (states r) (<[peer u := u]> (users r)).

(** Modelled from the spec: the read accessors of section 4.5. *)
Definition getGroups (r : Registry) : gmap GroupId GroupInfo := groups r.

Definition getGroupState (g : GroupId) (r : Registry) : option GroupState :=
states r !! g.

Definition getUsers (r : Registry) : gmap PeerId UserInfo := users r.

(** What mutates the registry. *)
Inductive Event : Type :=
| Created (info : GroupInfo)
| Delivered (m : GroupMessage)
| Joined (g : GroupId) (p : PeerId)
| Observed (u : UserInfo).

Definition step (r : Registry) (ev : Event) : Registry :=
match ev with
| Created info => createGroup info r
| Delivered m => deliver m r
| Joined g p => join g p r
| Observed u => observe u r
end.

Definition run (r : Registry) (history : list Event) : Registry :=
foldl step r history.

(** The number of copies of the message with key [k] in a group state. *)
Definition copies (k : PeerId * nat) (st : GroupState) : nat :=
length (filter (fun m => message_key m = k) (messages st)).

(** No two messages of a group state share their key. *)
Definition keyed (st : GroupState) : Prop :=
NoDup (message_key <$> messages st).

Definition well_keyed (r : Registry) : Prop :=
forall g st, states r !! g = Some st -> keyed st.

(** The key [k] is among the messages of the group [g]. *)
Definition holds (g : GroupId) (k : PeerId * nat) (r : Registry) : Prop :=
exists st, states r !! g = Some st /\ k ∈ message_key <$> messages st.

End Registry.

(** ** Scenarios

    Concrete runs of the engine, after the scenarios of section 8 of the
    specification. *)

Module Scenario.

(** File F, key "abc123", 1024 bytes. *)
Definition F : Directory.FileDescriptor :=
Directory.mkFile "abc123" "F" 1024 "application/octet-stream" None.

Definition content : list Byte.byte := replicate 1024 Byte.x2a.

(** Nodes A and C announce F; a key "ffffff" is never announced. *)
Definition announcements : list Directory.Event :=
[Directory.Announce 0 "A" F;
 Directory.Announce 2 "C" F;
 Directory.Reannounce 20 "A" "abc123";
 Directory.Collect 25].

(** Node A has gone away since; node C can be reached and has the 1024
    bytes of F. *)
Definition peers : Directory.Peers :=
Directory.mkPeers
  (fun p => bool_decide (p = "C"))
  (fun p =>
     if decide (p = "C") then
       {["abc123" :=
           Directory.mkHeld "F" 1024 "application/octet-stream" "/home/c/F"
             content]}
     else ∅).

(** Group G, created by node A. *)
Definition G : Registry.GroupInfo := Registry.mkGroupInfo "G" "friends" "A" 0.

(** Node A publishes "hello" with sequence 1; the message arrives twice, the
    second time with a later time stamp. *)
Definition hello : Registry.GroupMessage :=
Registry.mkGroupMessage "A" "G" "hello" 5 1.

Definition hello_again : Registry.GroupMessage :=
Registry.mkGroupMessage "A" "G" "hello" 9 1.

Definition reply_from_B : Registry.GroupMessage :=
Registry.mkGroupMessage "B" "G" "hi" 7 1.

End Scenario.
(** ** How a call unfolds *)

Section CallLemmas.
Context {St : Type}.
Variable backend : Backend St.

(** A call whose invocation is fulfilled. *)
Lemma call_fulfilled (op : Operation) (w : World St) (v : JsValue) (s' : St) :
  backend (request_of op) (core w) = (Fulfilled v, s') ->
  call backend op w =
    (Fulfilled (if returns_answer op then v else JUndefined),
     mkWorld s' (issued w ++ [request_of op]) (console w)).
Proof.
  intros Hb.
  destruct op; cbn in Hb |- *;
    unfold startListen, getLocalPeerId, stopListen, getListeners, getFile,
      startProvide, stopProvide, loadSetting, saveSetting, listProvide,
      connectedPeers, dial, publishMessage, subscribe, getGroups, newGroup,
      getGroupState, getUsers, try_catch, promise_catch, bind, invoke, ret;
    cbn; rewrite Hb; reflexivity.
Qed.

(** A call whose invocation is rejected. *)
Lemma call_rejected (op : Operation) (w : World St) (e : JsValue) (s' : St) :
  backend (request_of op) (core w) = (Rejected e, s') ->
  call backend op w =
    (if logs_and_swallows op then Fulfilled JUndefined else Rejected e,
     mkWorld s' (issued w ++ [request_of op])
       (if passes_through op then console w else console w ++ [e])).
Proof.
  intros Hb.
  destruct op; cbn in Hb |- *;
    unfold startListen, getLocalPeerId, stopListen, getListeners, getFile,
      startProvide, stopProvide, loadSetting, saveSetting, listProvide,
      connectedPeers, dial, publishMessage, subscribe, getGroups, newGroup,
      getGroupState, getUsers, try_catch, promise_catch, bind, invoke, ret,
      throw, console_error;
    cbn; rewrite Hb; reflexivity.
Qed.

(** Whatever the backend answers, a call sends exactly its request. *)
Lemma call_issued (op : Operation) (w : World St) :
  issued (snd (call backend op w)) = issued w ++ [request_of op].
Proof.
  destruct (backend (request_of op) (core w)) as [[v | e] s'] eqn:Hb.
  - rewrite (call_fulfilled op w v s' Hb). reflexivity.
  - rewrite (call_rejected op w e s' Hb). reflexivity.
Qed.
End CallLemmas.

(** ** Rejections: who reports them and who does not *)

Section Rejections.
Context {St : Type}.
Variable backend : Backend St.

(** Every wrapper but [stopListen] and [getFile] rejects with the backend's
    error. *)
Lemma rejection_reported (op : Operation) (w : World St) (e : JsValue)
    (s' : St) :
  logs_and_swallows op = false ->
  backend (request_of op) (core w) = (Rejected e, s') ->
  fst (call backend op w) = Rejected e.
Proof.
  intros Hop Hb. rewrite (call_rejected backend op w e s' Hb), Hop.
  reflexivity.
Qed.

(** [stopListen] and [getFile] print the error and fulfil with
    [undefined]. *)
Lemma rejection_swallowed (op : Operation) (w : World St) (e : JsValue)
    (s' : St) :
  logs_and_swallows op = true ->
  backend (request_of op) (core w) = (Rejected e, s') ->
  call backend op w =
    (Fulfilled JUndefined,
     mkWorld s' (issued w ++ [request_of op]) (console w ++ [e])).
Proof.
  intros Hop Hb. rewrite (call_rejected backend op w e s' Hb), Hop.
  destruct op; try discriminate Hop; reflexivity.
Qed.

(** [startListen] fulfils with [undefined] whatever address the backend
    accepted. *)
Lemma startListen_fulfilled (listenAddr : option string) (w : World St)
    (accepted : JsValue) (s' : St) :
  backend (request_of (StartListen listenAddr)) (core w)
    = (Fulfilled accepted, s') ->
  fst (startListen backend listenAddr w) = Fulfilled JUndefined.
Proof.
  intros Hb.
  change (startListen backend listenAddr) with
    (call backend (StartListen listenAddr)).
  rewrite (call_fulfilled backend _ w accepted s' Hb). reflexivity.
Qed.
End Rejections.

(** ** The claims about the wrappers *)

(** C1, at an input where the code departs from it.  The backend accepts
    the address [/ip4/127.0.0.1/tcp/4001] for [start_listen]; [startListen]
    awaits that answer and then falls off the end of its [try] block, so its
    caller is handed [undefined] and not the accepted address. *)
Theorem startListen_discards_accepted_address :
  fst (startListen (answering (JStr "/ip4/127.0.0.1/tcp/4001")) None fresh)
    = Fulfilled JUndefined
  /\ fst (startListen (answering (JStr "/ip4/127.0.0.1/tcp/4001")) None fresh)
    <> Fulfilled (JStr "/ip4/127.0.0.1/tcp/4001")
  /\ issued (snd (startListen (answering (JStr "/ip4/127.0.0.1/tcp/4001"))
                    None fresh))
    = [mkInvocation "start_listen" (Some [("listenAddr", JUndefined)])].
Proof.
  split; [reflexivity | split; [discriminate | reflexivity]].
Qed.

(** C2, at inputs where the code departs from it.  The backend rejects
    [stop_listen] and [get_file] with the error [listener not running];
    [stopListen] and [getFile] print the error and their promises are
    fulfilled with [undefined], so the failure is not reported through the
    result of either operation. *)
Theorem stopListen_getFile_swallow_rejection :
  stopListen (failing (JStr "listener not running")) fresh
    = (Fulfilled JUndefined,
       mkWorld tt [mkInvocation "stop_listen" None]
         [JStr "listener not running"])
  /\ getFile (failing (JStr "listener not running")) (JStr "abc123") fresh
    = (Fulfilled JUndefined,
       mkWorld tt [mkInvocation "get_file" (Some [("file", JStr "abc123")])]
         [JStr "listener not running"]).
Proof.
  split; reflexivity.
Qed.

(** C3.  [getGroups], [getGroupState] and [getUsers] each are one invocation
    of the command [invoke_manager], with the manager chosen by the string
    under [name] ("group", "group", "user") and the action by the string
    under [action] ("get_groups", "get_group_state", "get_users");
    [getGroupState] passes its GroupId under [params].  Every other operation
    sends a command that is not [invoke_manager] and that no other wrapper
    sends. *)
Theorem registry_reads_share_invoke_manager :
  forall (St : Type) (backend : Backend St),
    (forall w,
        getGroups backend w
        = invoke backend "invoke_manager"
            (Some [("name", JStr "group"); ("action", JStr "get_groups")]) w)
    /\ (forall groupId w,
        getGroupState backend groupId w
        = invoke backend "invoke_manager"
            (Some [("name", JStr "group"); ("action", JStr "get_group_state");
                   ("params", groupId)]) w)
    /\ (forall w,
        getUsers backend w
        = invoke backend "invoke_manager"
            (Some [("name", JStr "user"); ("action", JStr "get_users")]) w)
    /\ (forall op w,
        issued (snd (call backend op w)) = issued w ++ [request_of op])
    /\ (forall op,
        registry_read op = false -> cmd (request_of op) <> "invoke_manager")
    /\ (forall op op',
        registry_read op = false ->
        cmd (request_of op) = cmd (request_of op') ->
        wrapper_of op = wrapper_of op').
Proof.
  intros St backend.
  assert (Hret : forall c a w,
             bind (invoke backend c a) (fun v => ret v) w = invoke backend c a w).
  { intros c a w. unfold bind, invoke, ret.
    destruct (backend _ (core w)) as [[v | e] s']; reflexivity. }
  repeat split.
  - intros w. apply Hret.
  - intros groupId w. apply Hret.
  - intros w. apply Hret.
  - intros op w. apply call_issued.
  - intros op Hop. destruct op; try discriminate Hop; cbn; discriminate.
  - intros op op' Hop Hcmd.
    destruct op; try discriminate Hop;
      destruct op'; try discriminate Hcmd; reflexivity.
Qed.

(** C4.  Whatever the backend answers, fulfilment or rejection, a call of a
    wrapper issues exactly one invocation, the one of its command; in
    particular a call of [dial] issues the single invocation of [dial] with
    the address, also when the backend rejects it, and the rejection ends the
    call. *)
Theorem one_invocation_per_call :
  forall (St : Type) (backend : Backend St) (w : World St),
    (forall op,
        issued (snd (call backend op w)) = issued w ++ [request_of op])
    /\ (forall op,
        length (issued (snd (call backend op w))) = length (issued w) + 1)
    /\ (forall addr,
        issued (snd (dial backend addr w))
        = issued w ++ [mkInvocation "dial" (Some [("addr", JStr addr)])])
    /\ (forall addr e s',
        backend (mkInvocation "dial" (Some [("addr", JStr addr)])) (core w)
        = (Rejected e, s') ->
        dial backend addr w
        = (Rejected e,
           mkWorld s'
             (issued w ++ [mkInvocation "dial" (Some [("addr", JStr addr)])])
             (console w ++ [e]))).
Proof.
  intros St backend w. repeat split.
  - intros op. apply call_issued.
  - intros op. rewrite call_issued, length_app. reflexivity.
  - intros addr. apply (call_issued backend (Dial addr) w).
  - intros addr e s' Hb. apply (call_rejected backend (Dial addr) w e s' Hb).
Qed.

(** C9.  For each of [startListen], [getListeners], [startProvide],
    [stopProvide], [loadSetting], [saveSetting], [listProvide],
    [connectedPeers], [dial], [publishMessage] and [subscribe]: when the
    backend rejects the invocation with an error, the wrapper prints that
    error and its promise rejects with that same error. *)
Theorem rejection_rethrown_unchanged :
  forall (St : Type) (backend : Backend St) (op : Operation) (w : World St)
         (e : JsValue) (s' : St),
    logs_and_rethrows op = true ->
    backend (request_of op) (core w) = (Rejected e, s') ->
    call backend op w
    = (Rejected e,
       mkWorld s' (issued w ++ [request_of op]) (console w ++ [e])).
Proof.
  intros St backend op w e s' Hop Hb.
  rewrite (call_rejected backend op w e s' Hb).
  destruct op; try discriminate Hop; reflexivity.
Qed.

Lemma rejection_rethrown_unchanged_witness :
  logs_and_rethrows (Subscribe (JStr "g1")) = true
  /\ failing (JStr "no such group") (request_of (Subscribe (JStr "g1")))
       (core fresh)
     = (Rejected (JStr "no such group"), tt)
  /\ subscribe (failing (JStr "no such group")) (JStr "g1") fresh
     = (Rejected (JStr "no such group"),
        mkWorld tt
          [mkInvocation "subscribe" (Some [("groupId", JStr "g1")])]
          [JStr "no such group"]).
Proof.
  split; [reflexivity | split; [reflexivity |]].
  apply (rejection_rethrown_unchanged unit (failing (JStr "no such group"))
           (Subscribe (JStr "g1")) fresh (JStr "no such group") tt);
    reflexivity.
Defined.

(** C10.  [getLocalPeerId] behaves as the single direct invocation of
    [get_local_peer_id] and [newGroup] as the single direct invocation of
    [new_group] with the GroupInfo: the answer of the backend, value or
    rejection, is the result of the wrapper unmodified, and the console is
    left untouched. *)
Theorem pass_through_wrappers :
  forall (St : Type) (backend : Backend St) (w : World St),
    getLocalPeerId backend w
    = direct_invocation backend "get_local_peer_id" None w
    /\ (forall groupInfo,
        newGroup backend groupInfo w
        = direct_invocation backend "new_group"
            (Some [("groupInfo", groupInfo)]) w).
Proof.
  intros St backend w. unfold direct_invocation. split.
  - unfold getLocalPeerId, bind, invoke, ret.
    destruct (backend _ (core w)) as [[v | e] s']; reflexivity.
  - intros groupInfo. unfold newGroup, bind, invoke, ret.
    destruct (backend _ (core w)) as [[v | e] s']; reflexivity.
Qed.

(** ** Settings: saving and loading *)

Section SettingsRoundTrip.
Context {R : Type}.
Variable others : Backend R.
Variable standard_location : string.
Variable malformed : JsValue.
Variable nothing_saved : string -> Settled JsValue.

Let backend : Backend (gmap string Setting * R) :=
  SettingsStore.serve standard_location malformed nothing_saved others.

(** Saving with no path override writes the blob at the standard location. *)
Lemma saveSetting_default (s : Setting) (w : World (gmap string Setting * R)) :
  saveSetting backend s None w
  = (Fulfilled JUndefined,
     mkWorld (<[standard_location := s]> (fst (core w)), snd (core w))
       (issued w ++ [request_of (SaveSetting s None)]) (console w)).
Proof.
  destruct w as [[store rest] sent printed].
  reflexivity.
Qed.

(** Loading with no path override reads the blob at the standard location. *)
Lemma loadSetting_default (s : Setting) (w : World (gmap string Setting * R)) :
  fst (core w) !! standard_location = Some s ->
  loadSetting backend None w
  = (Fulfilled s,
     mkWorld (core w) (issued w ++ [request_of (LoadSetting None)])
       (console w)).
Proof.
  destruct w as [[store rest] sent printed]. cbn. intros Hs.
  unfold loadSetting, try_catch, bind, invoke, ret, backend,
    SettingsStore.serve. cbn.
  unfold Setting in *. rewrite Hs. reflexivity.
Qed.

(** C5.  Against a settings store that keeps one blob per path and uses the
    standard location when no path is given, [saveSetting(s)] with no path
    override is fulfilled and a following [loadSetting()] with no path
    override is fulfilled with [s]. *)
Theorem save_then_load_round_trip :
  forall (s : Setting) (w : World (gmap string Setting * R)),
    fst (saveSetting backend s None w) = Fulfilled JUndefined
    /\ fst (loadSetting backend None (snd (saveSetting backend s None w)))
       = Fulfilled s.
Proof.
  intros s w. rewrite saveSetting_default. split; [reflexivity |].
  cbn [snd]. rewrite (loadSetting_default s); [reflexivity |].
  cbn. apply lookup_insert_eq.
Qed.
End SettingsRoundTrip.

(** ** The directory: keys that were never announced *)

Section DirectoryFacts.
Import Directory.
Variable ttl : nat.

Lemma no_record_nil (k : ContentKey) : no_record k [].
Proof. intros r Hr. inversion Hr. Qed.

(** An event that does not announce [k] brings no record about [k]. *)
Lemma step_no_record (k : ContentKey) (ix : Index) (ev : Event) :
  ~ announces k ev -> no_record k ix -> no_record k (step ttl ix ev).
Proof.
  intros Hev Hix r Hr. destruct ev as [now p fd | now p k' | p fd | now]; cbn in *.
  - apply elem_of_app in Hr as [Hr | Hr].
    + apply list_elem_of_filter in Hr as [_ Hr]. exact (Hix r Hr).
    + apply list_elem_of_singleton in Hr. subst r. exact Hev.
  - unfold reannounce in Hr. apply list_elem_of_fmap in Hr as [r0 [-> Hr0]].
    destruct (decide (claims k' p r0)) as [[Hk _] | _].
    + cbn. rewrite <- Hk. exact (Hix r0 Hr0).
    + exact (Hix r0 Hr0).
  - apply list_elem_of_filter in Hr as [_ Hr]. exact (Hix r Hr).
  - apply list_elem_of_filter in Hr as [_ Hr]. exact (Hix r Hr).
Qed.

Lemma run_no_record (k : ContentKey) (history : list Event) :
  forall ix,
    never_announced k history -> no_record k ix ->
    no_record k (foldl (step ttl) ix history).
Proof.
  induction history as [| ev history IH]; intros ix Hnever Hix.
  - exact Hix.
  - inversion Hnever as [| ? ? Hev Hrest]; subst.
    cbn. apply IH; [exact Hrest |]. apply step_no_record; assumption.
Qed.

(** Without a record about [k], nobody is known to serve [k]. *)
Lemma live_no_record (now : nat) (k : ContentKey) (ix : Index) :
  no_record k ix -> live now k ix = [].
Proof.
  intros Hix. unfold live.
  induction ix as [| r ix IH]; [reflexivity |].
  rewrite filter_cons_False.
  - apply IH. intros r' Hr'. apply Hix. right. exact Hr'.
  - intros [Hk _]. apply (Hix r); [left | exact Hk].
Qed.

(** C7.  After any history of directory events in which the key was never
    announced, [findProviders] gives the empty sequence whenever the lookup
    can be made, also when it times out, and gives an error only when the
    directory itself is unreachable, so that the two outcomes are told
    apart. *)
Theorem findProviders_never_announced :
  forall (history : list Event) (k : ContentKey) (now : nat) (net : Lookup),
    never_announced k history ->
    match findProviders (index_after ttl history) now net k with
    | inr providers => providers = [] /\ net <> Unreachable
    | inl DirectoryUnreachable => net = Unreachable
    end.
Proof.
  intros history k now net Hnever.
  assert (Hlive : live now k (index_after ttl history) = []).
  { apply live_no_record. unfold index_after.
    apply run_no_record; [exact Hnever | apply no_record_nil]. }
  destruct net as [| heard |]; cbn.
  - rewrite Hlive. split; [reflexivity | discriminate].
  - rewrite Hlive, take_nil. split; [reflexivity | discriminate].
  - reflexivity.
Qed.
End DirectoryFacts.

(** ** File transfer: linear fallback over the providers *)

Section FetchFacts.
Import Directory.
Variable reply : PeerId -> ContentKey -> Reply.
Variable k : ContentKey.

(** The providers attempted are an initial segment of the providers given,
    in the same order. *)
Lemma attempt_prefix (providers : list PeerId) :
  forall budget, fst (attempt reply k budget providers) `prefix_of` providers.
Proof.
  induction providers as [| p rest IH]; intros budget; cbn.
  - reflexivity.
  - destruct budget as [[| n] |]; cbn; try apply prefix_nil.
    + destruct (received (reply p k)); cbn.
      * apply prefix_cons, prefix_nil.
      * specialize (IH (Some n)). cbn in IH.
        destruct (attempt reply k (Some n) rest); cbn in *.
        apply prefix_cons, IH.
    + destruct (received (reply p k)); cbn.
      * apply prefix_cons, prefix_nil.
      * specialize (IH None). cbn in IH.
        destruct (attempt reply k None rest); cbn in *.
        apply prefix_cons, IH.
Qed.

(** Without a budget, something is received exactly when the client takes what
    some provider sends. *)
Lemma attempt_received (providers : list PeerId) :
  is_Some (snd (attempt reply k None providers))
  <-> exists p, p ∈ providers /\ accepted reply k p.
Proof.
  induction providers as [| p rest IH]; cbn.
  - split.
    + intros [got Hgot]. discriminate Hgot.
    + intros [p [Hp _]]. inversion Hp.
  - destruct (received (reply p k)) as [got |] eqn:Hp; cbn.
    + split; [| eauto]. intros _. exists p. split; [left |].
      unfold accepted. rewrite Hp. eauto.
    + destruct (attempt reply k None rest) as [tried got] eqn:Hrest; cbn in *.
      rewrite IH. split.
      * intros [q [Hq Hd]]. exists q. split; [right; exact Hq | exact Hd].
      * intros [q [Hq Hd]]. apply elem_of_cons in Hq as [-> | Hq].
        -- unfold accepted in Hd. rewrite Hp in Hd. destruct Hd as [? Hd].
           discriminate Hd.
        -- exists q. split; assumption.
Qed.

(** Without a budget, nothing received means every provider was attempted. *)
Lemma attempt_exhausted (providers : list PeerId) :
  snd (attempt reply k None providers) = None ->
  fst (attempt reply k None providers) = providers.
Proof.
  induction providers as [| p rest IH]; cbn; [reflexivity |].
  destruct (received (reply p k)) as [got |]; cbn; [discriminate |].
  destruct (attempt reply k None rest) as [tried got]; cbn in *.
  intros Hgot. rewrite (IH Hgot). reflexivity.
Qed.

(** Without a budget, the providers in front of the first one that delivers
    are all attempted, then that one is attempted, and the attempts stop
    there. *)
Lemma attempt_first_delivering (front back : list PeerId) (p : PeerId) :
  (forall q, q ∈ front -> ~ accepted reply k q) ->
  accepted reply k p ->
  attempt reply k None (front ++ p :: back)
  = (front ++ [p], received (reply p k)).
Proof.
  intros Hfront Hp. induction front as [| q front IH]; cbn.
  - destruct Hp as [got Hgot]. rewrite Hgot. reflexivity.
  - destruct (received (reply q k)) as [got |] eqn:Hq.
    + exfalso. apply (Hfront q); [left |]. unfold accepted. rewrite Hq. eauto.
    + rewrite IH; [reflexivity |].
      intros q' Hq'. apply Hfront. right. exact Hq'.
Qed.

(** Without a budget, when the providers in front of the last one all fail,
    the last one is attempted too. *)
Lemma attempt_reaches_last (front : list PeerId) (last : PeerId) :
  (forall q, q ∈ front -> ~ accepted reply k q) ->
  fst (attempt reply k None (front ++ [last])) = front ++ [last].
Proof.
  intros Hfront. induction front as [| q front IH]; cbn.
  - destruct (received (reply last k)); reflexivity.
  - destruct (received (reply q k)) as [got |] eqn:Hq.
    + exfalso. apply (Hfront q); [left |]. unfold accepted. rewrite Hq. eauto.
    + specialize (IH (fun q' Hq' => Hfront q' (list_elem_of_further _ _ _ Hq'))).
      destruct (attempt reply k None (front ++ [last])) as [tried got].
      cbn in *. rewrite IH. reflexivity.
Qed.


(** Whatever the budget, what is received came from one of the providers. *)
Lemma attempt_source (providers : list PeerId) :
  forall budget got,
    snd (attempt reply k budget providers) = Some got ->
    exists p, p ∈ providers /\ received (reply p k) = Some got.
Proof.
  induction providers as [| p rest IH]; intros budget got; cbn.
  - discriminate.
  - assert (Hstep :
      snd (match received (reply p k) with
           | Some got0 => ([p], Some got0)
           | None =>
               let '(tried, got0) :=
                 attempt reply k (Nat.pred <$> budget) rest in
               (p :: tried, got0)
           end) = Some got ->
      exists q, q ∈ p :: rest /\ received (reply q k) = Some got).
    { destruct (received (reply p k)) as [got0 |] eqn:Hp; cbn.
      - intros [= <-]. exists p. split; [left | exact Hp].
      - specialize (IH (Nat.pred <$> budget) got).
        destruct (attempt reply k (Nat.pred <$> budget) rest) as [tried got0].
        cbn in *. intros Hgot. destruct (IH Hgot) as [q [Hq Hrecv]].
        exists q. split; [right; exact Hq | exact Hrecv]. }
    destruct budget as [[| n] |]; [discriminate | exact Hstep | exact Hstep].
Qed.
End FetchFacts.

Section FetchFromPeers.
Import Directory.
Variable net : Peers.

(** The client takes what a provider sends exactly when the provider can be
    reached and holds valid content for the key. *)
Lemma accepted_answer (k : ContentKey) (p : PeerId) :
  accepted (answer net) k p <-> holds_valid_content net k p.
Proof.
  unfold accepted, holds_valid_content, answer, received.
  destruct (reachable net p).
  - destruct (shelf net p !! k) as [h |].
    + cbn. destruct (decide (length (heldBytes h) = heldSize h)) as [Hlen | Hlen].
      * split; [| eauto]. intros _. split; [reflexivity |]. eauto.
      * split.
        -- intros [got Hgot]. discriminate Hgot.
        -- intros [_ [h' [[= <-] Hlen']]]. contradiction.
    + split.
      * intros [got Hgot]. discriminate Hgot.
      * intros [_ [h [Hh _]]]. discriminate Hh.
  - split.
    + intros [got Hgot]. discriminate Hgot.
    + intros [Hr _]. discriminate Hr.
Qed.

(** What the client takes from a provider is the provider's file for the
    key, with as many bytes as declared. *)
Lemma received_answer (k : ContentKey) (p : PeerId) (fd : FileDescriptor)
    (body : list Byte.byte) :
  received (answer net p k) = Some (fd, body) ->
  reachable net p = true
  /\ exists h, shelf net p !! k = Some h
               /\ fd = descriptor k h /\ body = heldBytes h
               /\ length (heldBytes h) = heldSize h.
Proof.
  unfold answer, received.
  destruct (reachable net p); [| discriminate].
  destruct (shelf net p !! k) as [h |]; [| discriminate].
  cbn. destruct (decide (length (heldBytes h) = heldSize h)) as [Hlen | Hlen];
    [| discriminate].
  intros [= <- <-]. split; [reflexivity |]. exists h. auto.
Qed.

(** C6, as amended.  [fetch(contentKey)] asks the directory first.  When the
    directory cannot be reached, the fetch fails with no provider attempted.
    Otherwise it attempts the providers that the lookup returned, in the
    directory's order; it succeeds exactly when one of the returned providers
    is reachable and holds valid content for the key; when it fails, every
    returned provider has been attempted; when all returned providers but the
    last fail, the last is attempted as well; and what a successful fetch
    hands back is the file that one of the returned providers holds under
    the key, with as many bytes as declared. *)
Theorem fetch_linear_fallback :
  forall (ix : Index) (now : nat) (lookup : Lookup) (k : ContentKey),
    let f := fetch ix now lookup (answer net) k in
    match findProviders ix now lookup k with
    | inl _ => attempted f = [] /\ ~ succeeded f
    | inr providers =>
        attempted f `prefix_of` providers
        /\ (succeeded f
            <-> exists p, p ∈ providers /\ holds_valid_content net k p)
        /\ (~ succeeded f -> attempted f = providers)
        /\ (forall front last,
            providers = front ++ [last] ->
            (forall q, q ∈ front -> ~ holds_valid_content net k q) ->
            attempted f = front ++ [last])
        /\ (forall fd body,
            outcome f = inr (fd, body) ->
            contentKey fd = k
            /\ length body = declaredSize fd
            /\ exists p h,
                p ∈ providers /\ reachable net p = true
                /\ shelf net p !! k = Some h
                /\ fd = descriptor k h /\ body = heldBytes h)
    end.
Proof.
  intros ix now lookup k f. subst f. unfold fetch, fetch_within.
  destruct (findProviders ix now lookup k) as [err | providers].
  { split; [reflexivity | intros H; exact H]. }
  pose proof (attempt_prefix (answer net) k providers None) as Hprefix.
  pose proof (attempt_received (answer net) k providers) as Hreceived.
  pose proof (attempt_exhausted (answer net) k providers) as Hexhausted.
  pose proof (attempt_source (answer net) k providers None) as Hsource.
  assert (Hlast : forall front last,
             providers = front ++ [last] ->
             (forall q, q ∈ front -> ~ holds_valid_content net k q) ->
             fst (attempt (answer net) k None providers) = front ++ [last]).
  { intros front last -> Hfront. apply attempt_reaches_last.
    intros q Hq Hacc. apply (Hfront q Hq), accepted_answer, Hacc. }
  assert (Hvalid :
            (exists p, p ∈ providers /\ accepted (answer net) k p)
            <-> exists p, p ∈ providers /\ holds_valid_content net k p).
  { split; intros [p [Hp Hacc]]; exists p; (split; [exact Hp |]);
      apply accepted_answer; exact Hacc. }
  rewrite Hvalid in Hreceived.
  destruct (attempt (answer net) k None providers) as [tried [got |]];
    cbn in *; unfold succeeded; cbn.
  - split; [exact Hprefix |]. split; [| split; [| split]].
    + rewrite <- Hreceived. split; eauto.
    + intros Hno. exfalso. apply Hno. exact I.
    + exact Hlast.
    + intros fd body [= ->].
      destruct (Hsource (fd, body) eq_refl) as [p [Hp Hrecv]].
      destruct (received_answer k p fd body Hrecv)
        as [Hreach [h [Hh [-> [-> Hlen]]]]].
      split; [reflexivity |]. split; [exact Hlen |].
      exists p, h. auto.
  - split; [exact Hprefix |]. split; [| split; [| split]].
    + rewrite <- Hreceived. split; [tauto |].
      intros [got Hgot]. discriminate Hgot.
    + intros _. apply Hexhausted. reflexivity.
    + exact Hlast.
    + intros fd body Hout. discriminate Hout.
Qed.
End FetchFromPeers.

(** ** The registry: one copy per (sender, sequence) *)

Section RegistryFacts.
Import Registry.

Lemma empty_well_keyed : well_keyed empty.
Proof. intros g st Hst. cbn in Hst. rewrite lookup_empty in Hst. discriminate. Qed.

(** Every event keeps the keys of every group state distinct. *)
Lemma step_well_keyed (r : Registry) (ev : Event) :
  well_keyed r -> well_keyed (step r ev).
Proof.
  intros Hr g st. destruct ev as [info | m | g' p | u]; cbn.
  - unfold createGroup. destruct (states r !! id info) eqn:Hknown.
    + apply Hr.
    + cbn. rewrite lookup_insert. case_decide.
      * intros [= <-]. unfold keyed. cbn. apply NoDup_nil. exact I.
      * apply Hr.
  - unfold deliver. destruct (states r !! groupId m) as [st0 |] eqn:Hknown.
    + case_decide as Hdup.
      * apply Hr.
      * cbn. rewrite lookup_insert. case_decide.
        -- intros [= <-]. unfold keyed. cbn. rewrite fmap_snoc.
           apply NoDup_app. split; [exact (Hr _ _ Hknown) |]. split.
           ++ intros k Hk Hk'. apply list_elem_of_singleton in Hk'.
              subst k. exact (Hdup Hk).
           ++ apply NoDup_singleton.
        -- apply Hr.
    + apply Hr.
  - unfold join. destruct (states r !! g') as [st0 |] eqn:Hknown.
    + cbn. rewrite lookup_insert. case_decide.
      * intros [= <-]. unfold keyed. cbn. exact (Hr _ _ Hknown).
      * apply Hr.
    + apply Hr.
  - apply Hr.
Qed.

Lemma run_well_keyed (history : list Event) :
  forall r, well_keyed r -> well_keyed (run r history).
Proof.
  induction history as [| ev history IH]; intros r Hr; cbn.
  - exact Hr.
  - apply IH, step_well_keyed, Hr.
Qed.

(** Messages are append-only: a key that a group holds stays. *)
Lemma step_holds (g : GroupId) (k : PeerId * nat) (r : Registry) (ev : Event) :
  holds g k r -> holds g k (step r ev).
Proof.
  intros [st [Hst Hk]]. destruct ev as [info | m | g' p | u]; cbn.
  - unfold createGroup. destruct (states r !! id info) eqn:Hknown.
    + exists st. split; assumption.
    + exists st. split; [| exact Hk]. cbn. rewrite lookup_insert_ne; [exact Hst |].
      intros Heq. rewrite Heq, Hst in Hknown. discriminate.
  - unfold deliver. destruct (states r !! groupId m) as [st0 |] eqn:Hknown.
    + case_decide as Hdup.
      * exists st. split; assumption.
      * destruct (decide (groupId m = g)) as [Heq | Hne].
        -- rewrite Heq, Hst in Hknown. injection Hknown as <-.
           eexists. split; [cbn; rewrite Heq; apply lookup_insert_eq |].
           cbn. rewrite fmap_snoc. apply elem_of_app. left. exact Hk.
        -- exists st. split; [| exact Hk]. cbn.
           rewrite lookup_insert_ne; [exact Hst | exact Hne].
    + exists st. split; assumption.
  - unfold join. destruct (states r !! g') as [st0 |] eqn:Hknown.
    + destruct (decide (g' = g)) as [Heq | Hne].
      * rewrite Heq, Hst in Hknown. injection Hknown as <-.
        eexists. split; [cbn; rewrite Heq; apply lookup_insert_eq |].
        cbn. exact Hk.
      * exists st. split; [| exact Hk]. cbn.
        rewrite lookup_insert_ne; [exact Hst | exact Hne].
    + exists st. split; assumption.
  - exists st. split; assumption.
Qed.

Lemma run_holds (g : GroupId) (k : PeerId * nat) (history : list Event) :
  forall r, holds g k r -> holds g k (run r history).
Proof.
  induction history as [| ev history IH]; intros r Hr; cbn.
  - exact Hr.
  - apply IH, step_holds, Hr.
Qed.

(** A message delivered to a known group is held by it afterwards. *)
Lemma deliver_holds (m : GroupMessage) (r : Registry) :
  is_Some (states r !! groupId m) ->
  holds (groupId m) (message_key m) (deliver m r).
Proof.
  intros [st Hst]. unfold deliver. rewrite Hst. case_decide as Hdup.
  - exists st. split; assumption.
  - eexists. split; [cbn; apply lookup_insert_eq |].
    cbn. rewrite fmap_snoc. apply elem_of_app. right. left.
Qed.

(** A duplicate of a message that the group holds changes nothing. *)
Lemma deliver_duplicate (m : GroupMessage) (r : Registry) :
  holds (groupId m) (message_key m) r -> deliver m r = r.
Proof.
  intros [st [Hst Hk]]. unfold deliver. rewrite Hst.
  case_decide; [reflexivity | contradiction].
Qed.

(** Among distinct keys, a key that occurs occurs once. *)
Lemma copies_one (k : PeerId * nat) (st : GroupState) :
  keyed st -> k ∈ message_key <$> messages st -> copies k st = 1.
Proof.
  unfold keyed, copies. generalize (messages st). intros ms.
  induction ms as [| m ms IH]; intros Hnodup Hk.
  - inversion Hk.
  - rewrite fmap_cons in Hnodup, Hk.
    apply NoDup_cons in Hnodup as [Hfresh Hnodup].
    destruct (decide (message_key m = k)) as [Heq | Hne].
    + rewrite filter_cons_True by exact Heq. cbn. f_equal.
      apply length_zero_iff_nil. apply elem_of_nil_inv. intros m' Hm'.
      apply list_elem_of_filter in Hm' as [Hkey Hm'].
      apply Hfresh. rewrite Heq, <- Hkey. apply list_elem_of_fmap_2. exact Hm'.
    + rewrite filter_cons_False by exact Hne.
      apply IH; [exact Hnodup |].
      apply elem_of_cons in Hk as [Hk | Hk]; [congruence | exact Hk].
Qed.

(** C8.  A registry starts empty and is changed by events only.  When a
    message is delivered to a group that is known, and later, after any
    further events, a message of the same group with the same sender and
    sequence is delivered again, the second delivery changes nothing and
    [getGroupState] of that group holds exactly one message with that
    (sender, sequence) key. *)
Theorem duplicate_delivery_one_copy :
  forall (before between : list Event) (m m' : GroupMessage),
    is_Some (getGroupState (groupId m) (run empty before)) ->
    groupId m' = groupId m ->
    message_key m' = message_key m ->
    deliver m' (run empty (before ++ [Delivered m] ++ between))
    = run empty (before ++ [Delivered m] ++ between)
    /\ exists st,
      getGroupState (groupId m)
        (run empty (before ++ [Delivered m] ++ between ++ [Delivered m']))
      = Some st
      /\ copies (message_key m) st = 1.
Proof.
  intros before between m m' Hknown Hgroup Hkey.
  set (r := run empty (before ++ [Delivered m] ++ between)).
  assert (Hheld : holds (groupId m) (message_key m) r).
  { unfold r, run. rewrite !foldl_app. cbn. apply run_holds.
    apply deliver_holds. exact Hknown. }
  assert (Hsame : deliver m' r = r).
  { apply deliver_duplicate. rewrite Hgroup, Hkey. exact Hheld. }
  split; [exact Hsame |].
  assert (Hrun : run empty (before ++ [Delivered m] ++ between ++ [Delivered m'])
                 = deliver m' r).
  { unfold r, run. rewrite !app_assoc, foldl_app. reflexivity. }
  rewrite Hrun, Hsame.
  destruct Hheld as [st [Hst Hk]]. exists st. split; [exact Hst |].
  apply copies_one; [| exact Hk].
  apply (run_well_keyed _ empty empty_well_keyed (groupId m) st Hst).
Qed.
End RegistryFacts.

(** ** The scenarios, run *)

Example scenario_providers :
  Directory.findProviders (Directory.index_after 30 Scenario.announcements)
    26 Directory.Answered "abc123" = inr ["A"; "C"].
Proof. vm_compute. reflexivity. Qed.

Example scenario_fetch :
  Directory.fetch (Directory.index_after 30 Scenario.announcements)
    26 Directory.Answered (Directory.answer Scenario.peers) "abc123"
  = Directory.mkFetched ["A"; "C"] (inr (Scenario.F, Scenario.content)).
Proof. vm_compute. reflexivity. Qed.

Example scenario_fetch_after_expiry :
  Directory.fetch (Directory.index_after 30 Scenario.announcements)
    60 Directory.Answered (Directory.answer Scenario.peers) "abc123"
  = Directory.mkFetched [] (inl Directory.NotFoundError).
Proof. vm_compute. reflexivity. Qed.

Example scenario_budget_of_one :
  Directory.fetch_within (Some 1)
    (Directory.index_after 30 Scenario.announcements)
    26 Directory.Answered (Directory.answer Scenario.peers) "abc123"
  = Directory.mkFetched ["A"] (inl Directory.TimeoutError).
Proof. vm_compute. reflexivity. Qed.

Example scenario_valid_provider :
  Directory.holds_valid_content Scenario.peers "abc123" "C"
  /\ ~ Directory.holds_valid_content Scenario.peers "abc123" "A".
Proof.
  split.
  - split; [reflexivity |]. eexists. split; vm_compute; reflexivity.
  - intros [Hreach _]. vm_compute in Hreach. discriminate Hreach.
Qed.

(** C6, as the claim words it, fails.  Nodes A and C have announced the key
    "abc123" and their records have not expired; node C can be reached and
    holds the 1024 valid bytes of F.  Yet the fetch does not succeed when the
    directory cannot be reached, and it does not succeed either when the
    lookup times out after hearing of node A only: success depends on what
    the lookup returns, and not only on a reachable provider holding valid
    content. *)
Lemma fetch_fails_beside_valid_provider :
  ~ (Directory.succeeded
       (Directory.fetch (Directory.index_after 30 Scenario.announcements)
          26 Directory.Unreachable (Directory.answer Scenario.peers) "abc123")
     <-> exists p,
         p ∈ Directory.live 26 "abc123"
               (Directory.index_after 30 Scenario.announcements)
         /\ Directory.holds_valid_content Scenario.peers "abc123" p)
  /\ ~ (Directory.succeeded
          (Directory.fetch (Directory.index_after 30 Scenario.announcements)
             26 (Directory.TimedOut 1) (Directory.answer Scenario.peers)
             "abc123")
        <-> exists p,
            p ∈ Directory.live 26 "abc123"
                  (Directory.index_after 30 Scenario.announcements)
            /\ Directory.holds_valid_content Scenario.peers "abc123" p).
Proof.
  assert (Hprovider :
            exists p,
              p ∈ Directory.live 26 "abc123"
                    (Directory.index_after 30 Scenario.announcements)
              /\ Directory.holds_valid_content Scenario.peers "abc123" p).
  { exists "C". split.
    - assert (Hlive : Directory.live 26 "abc123"
                        (Directory.index_after 30 Scenario.announcements)
                      = ["A"; "C"]) by (vm_compute; reflexivity).
      rewrite Hlive. right. left.
    - split; [reflexivity |]. eexists. split; vm_compute; reflexivity. }
  split; intros [_ Hsucceeds]; specialize (Hsucceeds Hprovider);
    vm_compute in Hsucceeds; exact Hsucceeds.
Qed.

Example scenario_directory_unreachable :
  Directory.fetch (Directory.index_after 30 Scenario.announcements)
    26 Directory.Unreachable (Directory.answer Scenario.peers) "abc123"
  = Directory.mkFetched [] (inl Directory.DirectoryFailure).
Proof. vm_compute. reflexivity. Qed.

Example scenario_lookup_timed_out :
  Directory.fetch (Directory.index_after 30 Scenario.announcements)
    26 (Directory.TimedOut 1) (Directory.answer Scenario.peers) "abc123"
  = Directory.mkFetched ["A"] (inl Directory.NotFoundError).
Proof. vm_compute. reflexivity. Qed.

Lemma findProviders_never_announced_witness :
  Directory.never_announced "ffffff" Scenario.announcements
  /\ match
       Directory.findProviders
         (Directory.index_after 30 Scenario.announcements)
         26 (Directory.TimedOut 3) "ffffff"
     with
     | inr providers =>
         providers = [] /\ Directory.TimedOut 3 <> Directory.Unreachable
     | inl Directory.DirectoryUnreachable =>
         Directory.TimedOut 3 = Directory.Unreachable
     end.
Proof.
  assert (Hnever : Directory.never_announced "ffffff" Scenario.announcements).
  { unfold Directory.never_announced, Scenario.announcements.
    repeat constructor; simpl; try discriminate; tauto. }
  split; [exact Hnever |].
  apply (findProviders_never_announced 30 Scenario.announcements "ffffff" 26
           (Directory.TimedOut 3) Hnever).
Defined.

Lemma duplicate_delivery_one_copy_witness :
  is_Some (Registry.getGroupState (Registry.groupId Scenario.hello)
             (Registry.run Registry.empty [Registry.Created Scenario.G]))
  /\ Registry.groupId Scenario.hello_again = Registry.groupId Scenario.hello
  /\ Registry.message_key Scenario.hello_again
     = Registry.message_key Scenario.hello
  /\ (Registry.deliver Scenario.hello_again
        (Registry.run Registry.empty
           ([Registry.Created Scenario.G] ++ [Registry.Delivered Scenario.hello]
            ++ [Registry.Joined "G" "B";
                Registry.Delivered Scenario.reply_from_B]))
      = Registry.run Registry.empty
          ([Registry.Created Scenario.G] ++ [Registry.Delivered Scenario.hello]
           ++ [Registry.Joined "G" "B";
               Registry.Delivered Scenario.reply_from_B])
      /\ exists st,
        Registry.getGroupState (Registry.groupId Scenario.hello)
          (Registry.run Registry.empty
             ([Registry.Created Scenario.G]
              ++ [Registry.Delivered Scenario.hello]
              ++ [Registry.Joined "G" "B";
                  Registry.Delivered Scenario.reply_from_B]
              ++ [Registry.Delivered Scenario.hello_again]))
        = Some st
        /\ Registry.copies (Registry.message_key Scenario.hello) st = 1).
Proof.
  assert (Hknown : is_Some
            (Registry.getGroupState (Registry.groupId Scenario.hello)
               (Registry.run Registry.empty [Registry.Created Scenario.G]))).
  { vm_compute. eexists. reflexivity. }
  split; [exact Hknown |].
  split; [reflexivity |]. split; [reflexivity |].
  apply (duplicate_delivery_one_copy [Registry.Created Scenario.G]
           [Registry.Joined "G" "B"; Registry.Delivered Scenario.reply_from_B]
           Scenario.hello Scenario.hello_again Hknown);
    reflexivity.
Defined.

Example scenario_group_state :
  Registry.messages
    <$> Registry.getGroupState "G"
          (Registry.run Registry.empty
             [Registry.Created Scenario.G;
              Registry.Delivered Scenario.hello;
              Registry.Delivered Scenario.hello_again])
  = Some [Scenario.hello].
Proof. vm_compute. reflexivity. Qed.

Example scenario_unknown_group_dropped :
  Registry.getGroupState "G"
    (Registry.run Registry.empty [Registry.Delivered Scenario.hello])
  = None.
Proof. vm_compute. reflexivity. Qed.

(** * Further properties of the wrappers *)

Section WrapperFacts.
Context {St : Type}.
Variable backend : Backend St.

(** The world a call leaves: the backend's new state, one more invocation,
    and the error printed, if any. *)
Lemma call_world (op : Operation) (w : World St) :
  snd (call backend op w)
  = mkWorld (snd (backend (request_of op) (core w)))
      (issued w ++ [request_of op])
      (console w ++ printed op (fst (backend (request_of op) (core w)))).
Proof.
  destruct (backend (request_of op) (core w)) as [[v | e] s'] eqn:Hb.
  - rewrite (call_fulfilled backend op w v s' Hb). cbn.
    rewrite app_nil_r. reflexivity.
  - rewrite (call_rejected backend op w e s' Hb). cbn.
    destruct (passes_through op); [rewrite app_nil_r |]; reflexivity.
Qed.

(** X1.  The ten wrappers that end in [return] of the awaited answer
    ([getLocalPeerId], [getListeners], [startProvide], [loadSetting],
    [listProvide], [connectedPeers], [getGroups], [newGroup],
    [getGroupState], [getUsers]) hand a fulfilled answer to their caller as
    it is and print nothing. *)
Theorem answer_returned_unchanged :
  forall (op : Operation) (w : World St) (v : JsValue) (s' : St),
    returns_answer op = true ->
    backend (request_of op) (core w) = (Fulfilled v, s') ->
    call backend op w
    = (Fulfilled v, mkWorld s' (issued w ++ [request_of op]) (console w)).
Proof.
  intros op w v s' Hop Hb.
  rewrite (call_fulfilled backend op w v s' Hb), Hop. reflexivity.
Qed.

(** X2.  The eight wrappers without a [return] ([startListen], [stopListen],
    [getFile], [stopProvide], [saveSetting], [dial], [publishMessage],
    [subscribe]) are fulfilled with [undefined] whatever value the backend
    answered with. *)
Theorem answer_discarded :
  forall (op : Operation) (w : World St) (v : JsValue) (s' : St),
    returns_answer op = false ->
    backend (request_of op) (core w) = (Fulfilled v, s') ->
    call backend op w
    = (Fulfilled JUndefined,
       mkWorld s' (issued w ++ [request_of op]) (console w)).
Proof.
  intros op w v s' Hop Hb.
  rewrite (call_fulfilled backend op w v s' Hb), Hop. reflexivity.
Qed.

(** X3.  [stopListen] and [getFile] never reject: whatever the backend does, their
    promise is fulfilled with [undefined]. *)
Theorem stopListen_getFile_never_reject :
  forall (w : World St),
    fst (stopListen backend w) = Fulfilled JUndefined
    /\ forall file, fst (getFile backend file w) = Fulfilled JUndefined.
Proof.
  intros w. split; [| intros file].
  - change (stopListen backend) with (call backend StopListen).
    destruct (backend (request_of StopListen) (core w)) as [[v | e] s'] eqn:Hb.
    + rewrite (call_fulfilled backend _ w v s' Hb). reflexivity.
    + rewrite (call_rejected backend _ w e s' Hb). reflexivity.
  - change (getFile backend file) with (call backend (GetFile file)).
    destruct (backend (request_of (GetFile file)) (core w))
      as [[v | e] s'] eqn:Hb.
    + rewrite (call_fulfilled backend _ w v s' Hb). reflexivity.
    + rewrite (call_rejected backend _ w e s' Hb). reflexivity.
Qed.

(** X4.  A wrapper makes up no error of its own and alters none: its promise
    rejects with [e] exactly when it is not [stopListen] or [getFile] and the
    backend rejected its invocation with [e]. *)
Theorem rejects_exactly_backend_errors :
  forall (op : Operation) (w : World St) (e : JsValue),
    fst (call backend op w) = Rejected e
    <-> logs_and_swallows op = false
        /\ fst (backend (request_of op) (core w)) = Rejected e.
Proof.
  intros op w e.
  destruct (backend (request_of op) (core w)) as [[v | e'] s'] eqn:Hb.
  - rewrite (call_fulfilled backend op w v s' Hb). cbn.
    split; [discriminate | intros [_ H]; discriminate H].
  - rewrite (call_rejected backend op w e' s' Hb). cbn.
    destruct (logs_and_swallows op).
    + split; [discriminate | intros [H _]; discriminate H].
    + split; [intros H; split; [reflexivity | exact H] | intros [_ H]; exact H].
Qed.

(** X5.  What a call prints: nothing when the invocation is fulfilled; the
    backend's error, once, when it is rejected and the wrapper has an error
    handler; nothing at all, also on rejection, for the five wrappers without
    one ([getLocalPeerId], [newGroup], [getGroups], [getGroupState],
    [getUsers]). *)
Theorem console_after_call :
  forall (op : Operation) (w : World St),
    console (snd (call backend op w))
    = console w
      ++ match fst (backend (request_of op) (core w)) with
         | Fulfilled _ => []
         | Rejected e => if passes_through op then [] else [e]
         end.
Proof.
  intros op w. rewrite call_world. reflexivity.
Qed.

(** X7.  Calls in a row issue one invocation per call, in call order, and settle
    once per call, whichever of them fail. *)
Theorem session_issued :
  forall (ops : list Operation) (w : World St),
    issued (snd (session backend ops w)) = issued w ++ (request_of <$> ops)
    /\ length (fst (session backend ops w)) = length ops.
Proof.
  induction ops as [| op rest IH]; intros w; cbn.
  - rewrite app_nil_r. split; reflexivity.
  - pose proof (call_issued backend op w) as Hcall.
    destruct (call backend op w) as [settled w'].
    specialize (IH w').
    destruct (session backend rest w') as [others w'']. cbn in *.
    destruct IH as [IHlog IHlen].
    rewrite IHlog, Hcall, <- app_assoc, IHlen. split; reflexivity.
Qed.

(** X8.  The wrappers keep no state of their own: across calls in a row the
    backend goes through exactly the states its own answers to the requests
    lead to. *)
Theorem session_core :
  forall (ops : list Operation) (w : World St),
    core (snd (session backend ops w))
    = foldl (fun s op => snd (backend (request_of op) s)) (core w) ops.
Proof.
  induction ops as [| op rest IH]; intros w; cbn.
  - reflexivity.
  - pose proof (call_world op w) as Hcall.
    destruct (call backend op w) as [settled w'].
    specialize (IH w').
    destruct (session backend rest w') as [others w'']. cbn in *.
    rewrite IH, Hcall. reflexivity.
Qed.

(** X9.  The console is append-only and holds at most one line per call: calls in
    a row leave what was printed before in place and add no more lines than
    there were calls. *)
Theorem session_console :
  forall (ops : list Operation) (w : World St),
    console w `prefix_of` console (snd (session backend ops w))
    /\ length (console (snd (session backend ops w)))
       <= length (console w) + length ops.
Proof.
  induction ops as [| op rest IH]; intros w; cbn.
  - split; [reflexivity | lia].
  - pose proof (call_world op w) as Hcall.
    destruct (call backend op w) as [settled w'].
    specialize (IH w').
    destruct (session backend rest w') as [others w'']. cbn in *.
    destruct IH as [IHpre IHlen]. subst w'. cbn in *. split.
    + etransitivity; [| exact IHpre]. apply prefix_app_r. reflexivity.
    + rewrite length_app in IHlen.
      assert (length (printed op (fst (backend (request_of op) (core w)))) <= 1).
      { unfold printed.
        destruct (fst (backend (request_of op) (core w)));
          [| destruct (passes_through op)]; cbn; lia. }
      lia.
Qed.

(** X10.  Against a backend that fulfils every invocation, calls in a row all
    fulfil and nothing is printed. *)
Theorem session_all_fulfilled :
  forall (ops : list Operation) (w : World St),
    (forall request s, exists v, fst (backend request s) = Fulfilled v) ->
    Forall (fun settled => exists v, settled = Fulfilled v)
      (fst (session backend ops w))
    /\ console (snd (session backend ops w)) = console w.
Proof.
  intros ops w Hgood. revert w.
  induction ops as [| op rest IH]; intros w; cbn.
  - split; [constructor | reflexivity].
  - pose proof (call_world op w) as Hworld.
    destruct (Hgood (request_of op) (core w)) as [v Hv].
    destruct (backend (request_of op) (core w)) as [answer s'] eqn:Hb.
    cbn in Hv. subst answer.
    rewrite (call_fulfilled backend op w v s' Hb) in Hworld |- *.
    cbn in Hworld |- *.
    specialize (IH (mkWorld s' (issued w ++ [request_of op]) (console w))).
    destruct (session backend rest _) as [others w'']. cbn in *.
    destruct IH as [IHall IHconsole]. split; [| exact IHconsole].
    constructor; [eexists; reflexivity | exact IHall].
Qed.
End WrapperFacts.

(** X6.  The invocation left behind tells the call: two calls that append the
    same invocation to the same log are calls of the same function, also
    among the three registry reads, which share their command and differ in
    the [name] and [action] they send; and they were made with the same
    arguments, except that [startProvide] with no file and [startProvide]
    with the file [undefined] send the same. *)
Theorem calls_told_apart :
  forall (St St' : Type) (backend : Backend St) (backend' : Backend St')
         (op op' : Operation) (w : World St) (w' : World St'),
    issued w = issued w' ->
    issued (snd (call backend op w)) = issued (snd (call backend' op' w')) ->
    wrapper_of op = wrapper_of op'
    /\ (wrapper_of op <> W_startProvide -> op = op')
    /\ (forall path file path' file',
        op = StartProvide path file -> op' = StartProvide path' file' ->
        path = path' /\ optional_value file = optional_value file').
Proof.
  intros St St' backend backend' op op' w w' Hlog Hsame.
  rewrite !call_issued, Hlog in Hsame.
  apply app_inv_head in Hsame. injection Hsame as Hreq.
  split; [| split].
  - destruct op; destruct op'; try discriminate Hreq; reflexivity.
  - intros Hop.
    destruct op; destruct op'; try discriminate Hreq;
      try (exfalso; apply Hop; reflexivity);
      repeat match goal with
             | o : option string |- _ => destruct o
             end;
      cbn in Hreq; congruence.
  - intros path file path' file' -> ->. cbn in Hreq.
    split; congruence.
Qed.

Lemma answer_returned_unchanged_witness :
  returns_answer (StartProvide "/home/a/F" None) = true
  /\ answering (JObj [("name", JStr "F")])
       (request_of (StartProvide "/home/a/F" None)) (core fresh)
     = (Fulfilled (JObj [("name", JStr "F")]), tt)
  /\ startProvide (answering (JObj [("name", JStr "F")])) "/home/a/F" None
       fresh
     = (Fulfilled (JObj [("name", JStr "F")]),
        mkWorld tt
          [mkInvocation "start_provide"
             (Some [("path", JStr "/home/a/F"); ("file", JUndefined)])]
          []).
Proof.
  split; [reflexivity | split; [reflexivity |]].
  apply (answer_returned_unchanged (answering (JObj [("name", JStr "F")]))
           (StartProvide "/home/a/F" None) fresh
           (JObj [("name", JStr "F")]) tt);
    reflexivity.
Defined.

Lemma answer_discarded_witness :
  returns_answer (Dial "/ip4/10.0.0.2/tcp/4001") = false
  /\ answering (JStr "connected") (request_of (Dial "/ip4/10.0.0.2/tcp/4001"))
       (core fresh)
     = (Fulfilled (JStr "connected"), tt)
  /\ dial (answering (JStr "connected")) "/ip4/10.0.0.2/tcp/4001" fresh
     = (Fulfilled JUndefined,
        mkWorld tt
          [mkInvocation "dial" (Some [("addr", JStr "/ip4/10.0.0.2/tcp/4001")])]
          []).
Proof.
  split; [reflexivity | split; [reflexivity |]].
  apply (answer_discarded (answering (JStr "connected"))
           (Dial "/ip4/10.0.0.2/tcp/4001") fresh (JStr "connected") tt);
    reflexivity.
Defined.

Lemma session_all_fulfilled_witness :
  (forall request s, exists v, fst (answering JNull request s) = Fulfilled v)
  /\ Forall (fun settled => exists v, settled = Fulfilled v)
       (fst (session (answering JNull) [StopListen; GetUsers; Dial "a"] fresh))
  /\ console (snd (session (answering JNull)
                     [StopListen; GetUsers; Dial "a"] fresh))
     = console fresh.
Proof.
  assert (Hgood : forall request s,
             exists v, fst (answering JNull request s) = Fulfilled v).
  { intros request s. exists JNull. reflexivity. }
  split; [exact Hgood |].
  apply (session_all_fulfilled (answering JNull)
           [StopListen; GetUsers; Dial "a"] fresh Hgood).
Defined.

Lemma calls_told_apart_witness :
  issued fresh = issued fresh
  /\ issued (snd (call (answering JNull) GetGroups fresh))
     = issued (snd (call (failing JNull) GetGroups fresh))
  /\ wrapper_of GetGroups = wrapper_of GetGroups
  /\ (wrapper_of GetGroups <> W_startProvide -> GetGroups = GetGroups)
  /\ (forall path file path' file',
        GetGroups = StartProvide path file ->
        GetGroups = StartProvide path' file' ->
        path = path' /\ optional_value file = optional_value file').
Proof.
  split; [reflexivity | split; [reflexivity |]].
  apply (calls_told_apart unit unit (answering JNull) (failing JNull)
           GetGroups GetGroups fresh fresh);
    reflexivity.
Defined.

Example registry_reads_differ_in_arguments :
  cmd (request_of GetGroups) = cmd (request_of GetUsers)
  /\ request_of GetGroups <> request_of GetUsers.
Proof. split; [reflexivity | discriminate]. Qed.

Example startProvide_undefined_file :
  request_of (StartProvide "p" None)
  = request_of (StartProvide "p" (Some JUndefined)).
Proof. reflexivity. Qed.
